(** * match-observable: the stream matcher of [src/lib/match-obs.ts]

    A shallow embedding of [matchObservable] and of the three subscription
    handlers [next], [error], [complete] together with [finalize].

    The closure variables of [matchObs] ([expectedStep], [subs]) and the
    parts of the JavaScript environment the handlers touch (the promise, the
    timer queue, the subscription) form an explicit state.  Every effect a
    handler performs is also appended to a log, oldest first, so that the
    order of effects can be stated. *)

From Stdlib Require Import ZArith List String Ascii Bool Lia DecimalString.
Import ListNotations.
Open Scope Z_scope.

(** ** JavaScript conventions *)

(** [`${n}`] for an integral number [n]: decimal digits, with a leading
    minus sign for a negative one. *)
Definition number_toString (z : Z) : string :=
  NilZero.string_of_int (Z.to_int z).

(** The character written [\n] in the source's template literals. *)
Definition nl : string := String (ascii_of_nat 10) EmptyString.

(** [if (message)]: a string is truthy when it is not empty; a missing
    argument ([undefined]) is falsy. *)
Definition truthy (message : option string) : bool :=
  match message with
  | Some (String _ _) => true
  | Some EmptyString => false
  | None => false
  end.

(** ** The default arguments, at the values of the examples

    Numbers and [undefined] are enough for the scenarios below. *)
Inductive jsval : Type :=
| JUndefined
| JNumber (n : Z).

(** [(a, b) => a === b] *)
Definition strict_equal (a b : jsval) : bool :=
  match a, b with
  | JUndefined, JUndefined => true
  | JNumber x, JNumber y => x =? y
  | _, _ => false
  end.

(** [v => JSON.stringify(v)], as the string the message receives:
    [JSON.stringify(undefined)] is [undefined], which concatenation turns
    into the text "undefined". *)
Definition JSON_stringify (v : jsval) : string :=
  match v with
  | JUndefined => "undefined"
  | JNumber n => number_toString n
  end.

(** Errors given as strings: [toString] returns the string itself. *)
Definition string_toString (e : string) : option string := Some e.


Section Matcher.

(** [T] is the type of the observable's values.  [values[i]] out of range
    is JavaScript's [undefined], which the source's typing places in [T].
    [E] is the type of the values an observable can error with ([err] is
    untyped in the source).  [toString err] is the result of
    [err.toString()]: [None] when the call throws a TypeError, as it does
    for [null] and [undefined]. *)
Variables T E : Type.
Variable undefined : T.
Variable toString : E -> option string.

(** The arguments of [matchObservable] (the observable itself is given by
    the events it delivers, see [matchObs] below). *)
Variable values : list T.
Variable expectComplete : bool.
Variable expectError : bool.
Variable matcher : T -> T -> bool.
Variable valuePrinter : T -> string.

(** [values.length] *)
Definition values_length : Z := Z.of_nat (List.length values).

(** [values[i]] for an integral [i] *)
Definition values_at (i : Z) : T :=
  if i <? 0 then undefined else nth (Z.to_nat i) values undefined.

(** *** State and effects *)

Inductive effect : Type :=
| EAssignStep (z : Z)               (* expectedStep = z, expectedStep++ *)
| ECallMatcher (actual expected : T) (* matcher(actual, expected) *)
| ECallPrinter (v : T)              (* valuePrinter(v) *)
| ECallToString (e : E)             (* err.toString() *)
| EToStringThrows (e : E)           (* err.toString throws a TypeError *)
| ESetTimeout                       (* setTimeout(() => subs.unsubscribe(), 0) *)
| EResolve                          (* resolve() *)
| EReject (reason : string)         (* reject(reason) *)
| EUnsubscribe                      (* subs.unsubscribe(), from a timer *)
| ETypeError.                       (* subs.unsubscribe() with subs unassigned *)

(** The promise returned by [matchObservable]: the first call of [resolve]
    or [reject] settles it, later calls leave it as it is. *)
Inductive settlement : Type :=
| Pending
| Resolved
| Rejected (reason : string).

Record state : Type := mkState {
  expectedStep : Z;      (* let expectedStep *)
  subs : bool;           (* has [const subs] received its value? *)
  promise : settlement;
  timers : nat;          (* callbacks scheduled by setTimeout, not yet run *)
  unsubscribed : nat;    (* completed calls of subs.unsubscribe() *)
  log : list effect      (* every effect so far, oldest first *)
}.

Definition tell_log (e : effect) (s : state) : state :=
  mkState (expectedStep s) (subs s) (promise s) (timers s) (unsubscribed s)
          (log s ++ [e]).

Definition set_step (z : Z) (s : state) : state :=
  mkState z (subs s) (promise s) (timers s) (unsubscribed s) (log s).

Definition set_subs (b : bool) (s : state) : state :=
  mkState (expectedStep s) b (promise s) (timers s) (unsubscribed s) (log s).

Definition set_promise (p : settlement) (s : state) : state :=
  mkState (expectedStep s) (subs s) p (timers s) (unsubscribed s) (log s).

Definition set_timers (n : nat) (s : state) : state :=
  mkState (expectedStep s) (subs s) (promise s) n (unsubscribed s) (log s).

Definition set_unsubscribed (n : nat) (s : state) : state :=
  mkState (expectedStep s) (subs s) (promise s) (timers s) n (log s).

(** *** A small state monad for the handlers *)

Definition M (A : Type) : Type := state -> A * state.

Definition ret {A : Type} (a : A) : M A := fun s => (a, s).

Definition bind {A B : Type} (m : M A) (k : A -> M B) : M B :=
  fun s => let (a, s') := m s in k a s'.

Notation "x <- m ;; k" := (bind m (fun x => k))
  (at level 61, m at next level, right associativity).
Notation "m ;; k" := (bind m (fun _ => k))
  (at level 61, right associativity).

Definition exec {A : Type} (m : M A) (s : state) : state := snd (m s).

Definition read_step : M Z := fun s => (expectedStep s, s).

Definition write_step (z : Z) : M unit :=
  fun s => (tt, tell_log (EAssignStep z) (set_step z s)).

Definition call_matcher (actual expected : T) : M bool :=
  fun s => (matcher actual expected, tell_log (ECallMatcher actual expected) s).

Definition call_valuePrinter (v : T) : M string :=
  fun s => (valuePrinter v, tell_log (ECallPrinter v) s).

(** [err.toString()]: the description, or [None] when the evaluation
    throws. *)
Definition call_toString (e : E) : M (option string) :=
  fun s =>
    match toString e with
    | Some description => (Some description, tell_log (ECallToString e) s)
    | None => (None, tell_log (EToStringThrows e) s)
    end.

(** [setTimeout(() => subs.unsubscribe(), 0)]: the callback is queued, it
    does not run now. *)
Definition setTimeout_unsubscribe : M unit :=
  fun s => (tt, tell_log ESetTimeout (set_timers (S (timers s)) s)).

Definition settle (p : settlement) (s : state) : state :=
  match promise s with
  | Pending => set_promise p s
  | _ => s
  end.

Definition resolve : M unit :=
  fun s => (tt, tell_log EResolve (settle Resolved s)).

Definition reject (reason : string) : M unit :=
  fun s => (tt, tell_log (EReject reason) (settle (Rejected reason) s)).

(** *** The source's functions *)

(** [function finalize(message?: string)] *)
Definition finalize (message : option string) : M unit :=
  write_step (-1) ;;
  setTimeout_unsubscribe ;;
  if truthy message
  then reject (match message with Some m => m | None => EmptyString end)
  else resolve.

(** [function next(value)] *)
Definition next (value : T) : M unit :=
  step <- read_step ;;
  if step =? -1 then ret tt
  else if step >=? values_length then
    printed <- call_valuePrinter value ;;
    finalize (Some ("Too many values on observable: " ++ printed)%string)
  else
    matched <- call_matcher value (values_at step) ;;
    if Bool.eqb matched false then
      received <- call_valuePrinter value ;;
      expected <- call_valuePrinter (values_at step) ;;
      finalize (Some ("Values at index " ++ number_toString step
                      ++ " are expected to match. Received:" ++ nl
                      ++ received ++ nl ++ "Expected:" ++ nl
                      ++ expected)%string)
    else
      write_step (step + 1) ;;
      step' <- read_step ;;
      if negb expectComplete && negb expectError && (step' =? values_length)
      then finalize None
      else ret tt.

(** [function error(err)].  The argument of the second [finalize] is
    evaluated first: when [err.toString()] throws, the exception leaves the
    handler and [finalize] is not called. *)
Definition error (err : E) : M unit :=
  step <- read_step ;;
  if step =? -1 then ret tt
  else if expectError && (step =? values_length) then finalize None
  else
    called <- call_toString err ;;
    match called with
    | Some description =>
        finalize (Some ("Observable errored unexpectedly before emission index "
                        ++ number_toString step ++ ". Error: "
                        ++ description)%string)
    | None => ret tt
    end.

(** [function complete()] *)
Definition complete : M unit :=
  step <- read_step ;;
  if step =? -1 then ret tt
  else if step =? values_length then finalize None
  else
    finalize (Some ("Observable completed unexpectedly after "
                    ++ number_toString step ++ " value emissions. "
                    ++ (if (step <? values_length)%Z
                        then "Missing values from observable."
                        else "Too many values on observable."))%string).

(** *** The observable and the event loop *)

(** What an observable does to its subscriber. *)
Inductive event : Type :=
| Next (value : T)
| Error (err : E)
| Complete.

Definition handler (ev : event) : M unit :=
  match ev with
  | Next value => next value
  | Error err => error err
  | Complete => complete
  end.

(** The handlers run to completion one after the other, in the order the
    observable calls them. *)
Definition deliver (evs : list event) (s : state) : state :=
  fold_left (fun s ev => exec (handler ev) s) evs s.

(** [let expectedStep = 0], before [subscribe] is called. *)
Definition initial : state := mkState 0 false Pending 0 0 [].

(** [function matchObs(resolve, reject)]: [obs$.subscribe] may call the
    handlers before it returns ([sync] lists those calls); only then does
    [subs] receive the subscription. *)
Definition matchObs (sync : list event) : state :=
  set_subs true (deliver sync initial).

(** The timer callback [() => subs.unsubscribe()]. *)
Definition unsubscribe_callback : M unit :=
  fun s =>
    if subs s
    then (tt, tell_log EUnsubscribe (set_unsubscribed (S (unsubscribed s)) s))
    else (tt, tell_log ETypeError s).

(** After [matchObs] has returned, each later turn of the event loop either
    lets the observable call one handler or runs the oldest pending
    timer. *)
Inductive turn : Type :=
| Deliver (ev : event)
| Timeout.

Definition run_turn (s : state) (t : turn) : state :=
  match t with
  | Deliver ev => exec (handler ev) s
  | Timeout =>
      match timers s with
      | O => s
      | S n => exec unsubscribe_callback (set_timers n s)
      end
  end.

(** [matchObservable(obs$, values, expectComplete, expectError, matcher,
    valuePrinter)], for an observable that delivers [sync] inside
    [subscribe] and whose later turns are [later]. *)
Definition matchObservable (sync : list event) (later : list turn) : state :=
  fold_left run_turn later (matchObs sync).

(** *** Reachable states and what is counted in the log *)

(** The states the matcher can be in: inside [subscribe], after some
    handler calls, or after [matchObs] has returned and some turns of the
    event loop have passed. *)
Inductive reachable : state -> Prop :=
| reach_subscribing (evs : list event) :
    reachable (deliver evs initial)
| reach_later (sync : list event) (later : list turn) :
    reachable (matchObservable sync later).

Definition is_settle (e : effect) : bool :=
  match e with EResolve | EReject _ => true | _ => false end.

(** [finalize] is the only place that assigns -1. *)
Definition is_finalize (e : effect) : bool :=
  match e with EAssignStep z => z =? -1 | _ => false end.

Definition is_setTimeout (e : effect) : bool :=
  match e with ESetTimeout => true | _ => false end.

Definition is_unsubscribe (e : effect) : bool :=
  match e with EUnsubscribe => true | _ => false end.

Definition is_typeError (e : effect) : bool :=
  match e with ETypeError => true | _ => false end.

(** Calls of the comparator and construction of a message (the printer
    and [toString] are called for nothing else). *)
Definition is_observation (e : effect) : bool :=
  match e with
  | ECallMatcher _ _ | ECallPrinter _ | ECallToString _ => true
  | _ => false
  end.

Definition count (p : effect -> bool) (l : list effect) : nat :=
  List.length (filter p l).

(** Nothing of [finalize] has happened yet. *)
Definition untouched (s : state) : Prop :=
  promise s = Pending /\ timers s = 0%nat /\ unsubscribed s = 0%nat /\
  count is_settle (log s) = 0%nat /\
  count is_setTimeout (log s) = 0%nat /\
  count is_finalize (log s) = 0%nat /\
  count is_unsubscribe (log s) = 0%nat /\
  count is_typeError (log s) = 0%nat.

(** [finalize] has run once, and its timer is pending or has run. *)
Definition finalized_once (s : state) : Prop :=
  promise s <> Pending /\ (timers s + unsubscribed s = 1)%nat /\
  count is_settle (log s) = 1%nat /\
  count is_setTimeout (log s) = 1%nat /\
  count is_finalize (log s) = 1%nat /\
  count is_unsubscribe (log s) = unsubscribed s /\
  count is_typeError (log s) = 0%nat /\
  (subs s = false -> unsubscribed s = 0%nat).

Definition invariant (s : state) : Prop :=
  (expectedStep s = -1 /\ finalized_once s) \/
  (0 <= expectedStep s <= values_length /\ untouched s).

(** The handler calls among the later turns, in order. *)
Definition emissions (later : list turn) : list event :=
  flat_map (fun t => match t with Deliver ev => [ev] | Timeout => [] end)
           later.

(** Two states agree on what the caller and the handlers' tests see. *)
Definition same_verdict (s s' : state) : Prop :=
  expectedStep s = expectedStep s' /\ promise s = promise s'.

(** The values [vs] arrive in order and each satisfies the comparator
    against the expected value at its position. *)
Definition all_match (vs expected : list T) : Prop :=
  Forall2 (fun v e => matcher v e = true) vs expected.

(** Calls of the comparator, and calls that print for a message. *)
Definition is_compare (e : effect) : bool :=
  match e with ECallMatcher _ _ => true | _ => false end.

Definition is_print (e : effect) : bool :=
  match e with ECallPrinter _ | ECallToString _ => true | _ => false end.

(** A call of the comparator whose second argument is an element of
    [values] (and not the [undefined] of a read out of range). *)
Definition expected_in_values (e : effect) : Prop :=
  match e with
  | ECallMatcher _ expected =>
      exists i : nat, nth_error values i = Some expected
  | _ => True
  end.

(** How the log relates to the cursor and to the promise. *)
Definition log_invariant (s : state) : Prop :=
  Forall expected_in_values (log s) /\
  (count is_compare (log s) <= List.length values)%nat /\
  (expectedStep s <> -1 ->
   Z.of_nat (count is_compare (log s)) = expectedStep s) /\
  (promise s = Pending \/ promise s = Resolved ->
   count is_print (log s) = 0%nat).

(** ** Equations of the handlers *)

Lemma count_app (p : effect -> bool) (l1 l2 : list effect) :
  count p (l1 ++ l2) = (count p l1 + count p l2)%nat.
Proof. unfold count. rewrite filter_app, length_app. reflexivity. Qed.

Lemma count_cons (p : effect -> bool) (e : effect) (l : list effect) :
  count p (e :: l) = ((if p e then 1 else 0) + count p l)%nat.
Proof. unfold count. cbn. destruct (p e); reflexivity. Qed.

Lemma count_nil (p : effect -> bool) : count p [] = 0%nat.
Proof. reflexivity. Qed.

Lemma finalize_exec (message : option string) (s : state) :
  exec (finalize message) s =
  mkState (-1) (subs s)
    (match promise s with
     | Pending =>
         match message with
         | Some (String c m) => Rejected (String c m)
         | _ => Resolved
         end
     | p => p
     end)
    (S (timers s)) (unsubscribed s)
    (log s ++ [EAssignStep (-1); ESetTimeout;
               match message with
               | Some (String c m) => EReject (String c m)
               | _ => EResolve
               end]).
Proof.
  destruct s as [st sb pr tm un lg].
  destruct message as [[|c m]|]; destruct pr;
    cbn; unfold tell_log, set_promise, set_timers, set_step; cbn;
    rewrite <- !app_assoc; reflexivity.
Qed.

Lemma next_finalized (value : T) (s : state) :
  expectedStep s = -1 -> next value s = (tt, s).
Proof. intros H. unfold next, bind, read_step. rewrite H. reflexivity. Qed.

Lemma error_finalized (err : E) (s : state) :
  expectedStep s = -1 -> error err s = (tt, s).
Proof. intros H. unfold error, bind, read_step. rewrite H. reflexivity. Qed.

Lemma complete_finalized (s : state) :
  expectedStep s = -1 -> complete s = (tt, s).
Proof. intros H. unfold complete, bind, read_step. rewrite H. reflexivity. Qed.

Lemma handler_finalized (ev : event) (s : state) :
  expectedStep s = -1 -> exec (handler ev) s = s.
Proof.
  intros H. unfold exec.
  destruct ev; cbn [handler];
    [rewrite next_finalized | rewrite error_finalized
     | rewrite complete_finalized]; auto.
Qed.

Lemma next_too_many (value : T) (s : state) :
  expectedStep s <> -1 -> values_length <= expectedStep s ->
  exec (next value) s =
  exec (finalize (Some ("Too many values on observable: "
                        ++ valuePrinter value)%string))
       (tell_log (ECallPrinter value) s).
Proof.
  intros Hn Hge. unfold exec, next, bind, read_step, call_valuePrinter.
  destruct (Z.eqb_spec (expectedStep s) (-1)) as [|_]; [contradiction|].
  destruct (Z.geb_spec (expectedStep s) values_length) as [_|Hlt]; [|lia].
  reflexivity.
Qed.

Lemma next_mismatch (value : T) (s : state) :
  expectedStep s <> -1 -> expectedStep s < values_length ->
  matcher value (values_at (expectedStep s)) = false ->
  exec (next value) s =
  exec (finalize
          (Some ("Values at index " ++ number_toString (expectedStep s)
                 ++ " are expected to match. Received:" ++ nl
                 ++ valuePrinter value ++ nl ++ "Expected:" ++ nl
                 ++ valuePrinter (values_at (expectedStep s)))%string))
       (tell_log (ECallPrinter (values_at (expectedStep s)))
          (tell_log (ECallPrinter value)
             (tell_log (ECallMatcher value (values_at (expectedStep s))) s))).
Proof.
  intros Hn Hlt Hm.
  unfold exec, next, bind, read_step, call_valuePrinter, call_matcher.
  destruct (Z.eqb_spec (expectedStep s) (-1)) as [|_]; [contradiction|].
  destruct (Z.geb_spec (expectedStep s) values_length) as [Hge|_]; [lia|].
  rewrite Hm. reflexivity.
Qed.

Lemma next_match (value : T) (s : state) :
  expectedStep s <> -1 -> expectedStep s < values_length ->
  matcher value (values_at (expectedStep s)) = true ->
  exec (next value) s =
  let s' := tell_log (EAssignStep (expectedStep s + 1))
              (set_step (expectedStep s + 1)
                 (tell_log (ECallMatcher value (values_at (expectedStep s)))
                    s)) in
  if negb expectComplete && negb expectError
     && (expectedStep s + 1 =? values_length)
  then exec (finalize None) s'
  else s'.
Proof.
  intros Hn Hlt Hm.
  unfold exec, next, bind, read_step, write_step, call_matcher.
  destruct (Z.eqb_spec (expectedStep s) (-1)) as [|_]; [contradiction|].
  destruct (Z.geb_spec (expectedStep s) values_length) as [Hge|_]; [lia|].
  rewrite Hm. cbn.
  destruct (negb expectComplete && negb expectError
            && (expectedStep s + 1 =? values_length)); reflexivity.
Qed.

Lemma error_expected (err : E) (s : state) :
  expectedStep s <> -1 ->
  expectError = true -> expectedStep s = values_length ->
  exec (error err) s = exec (finalize None) s.
Proof.
  intros Hn He Hl. unfold exec, error, bind, read_step.
  destruct (Z.eqb_spec (expectedStep s) (-1)) as [|_]; [contradiction|].
  rewrite He, Hl, Z.eqb_refl. reflexivity.
Qed.

Lemma error_unexpected (err : E) (description : string) (s : state) :
  expectedStep s <> -1 ->
  expectError = false \/ expectedStep s <> values_length ->
  toString err = Some description ->
  exec (error err) s =
  exec (finalize
          (Some ("Observable errored unexpectedly before emission index "
                 ++ number_toString (expectedStep s) ++ ". Error: "
                 ++ description)%string))
       (tell_log (ECallToString err) s).
Proof.
  intros Hn Hc Ht. unfold exec, error, bind, read_step, call_toString.
  destruct (Z.eqb_spec (expectedStep s) (-1)) as [|_]; [contradiction|].
  assert (Hb : expectError && (expectedStep s =? values_length) = false).
  { destruct Hc as [-> | Hne]; [reflexivity|].
    apply Z.eqb_neq in Hne. rewrite Hne. apply andb_false_r. }
  rewrite Hb, Ht. reflexivity.
Qed.

Lemma error_throws (err : E) (s : state) :
  expectedStep s <> -1 ->
  expectError = false \/ expectedStep s <> values_length ->
  toString err = None ->
  exec (error err) s = tell_log (EToStringThrows err) s.
Proof.
  intros Hn Hc Ht. unfold exec, error, bind, read_step, call_toString.
  destruct (Z.eqb_spec (expectedStep s) (-1)) as [|_]; [contradiction|].
  assert (Hb : expectError && (expectedStep s =? values_length) = false).
  { destruct Hc as [-> | Hne]; [reflexivity|].
    apply Z.eqb_neq in Hne. rewrite Hne. apply andb_false_r. }
  rewrite Hb, Ht. reflexivity.
Qed.

(** The three ways through [error] in a state that is not finalized. *)
Lemma error_cases (err : E) (s : state) :
  expectedStep s <> -1 ->
  (expectError = true /\ expectedStep s = values_length /\
   exec (error err) s = exec (finalize None) s) \/
  (exists description : string,
      toString err = Some description /\
      (expectError = false \/ expectedStep s <> values_length) /\
      exec (error err) s =
      exec (finalize
              (Some ("Observable errored unexpectedly before emission index "
                     ++ number_toString (expectedStep s) ++ ". Error: "
                     ++ description)%string))
           (tell_log (ECallToString err) s)) \/
  (toString err = None /\
   (expectError = false \/ expectedStep s <> values_length) /\
   exec (error err) s = tell_log (EToStringThrows err) s).
Proof.
  intros Hn.
  assert (Hc : (expectError = true /\ expectedStep s = values_length) \/
               (expectError = false \/ expectedStep s <> values_length)).
  { destruct expectError; [|auto].
    destruct (Z.eq_dec (expectedStep s) values_length); auto. }
  destruct Hc as [[Hx He] | Hc].
  - left. repeat split; auto. apply error_expected; assumption.
  - right. destruct (toString err) as [description |] eqn:Ht.
    + left. exists description. repeat split; auto.
      apply error_unexpected; assumption.
    + right. repeat split; auto. apply error_throws; assumption.
Qed.

Lemma complete_at_end (s : state) :
  expectedStep s <> -1 -> expectedStep s = values_length ->
  exec complete s = exec (finalize None) s.
Proof.
  intros Hn Hl. unfold exec, complete, bind, read_step.
  destruct (Z.eqb_spec (expectedStep s) (-1)) as [|_]; [contradiction|].
  rewrite Hl, Z.eqb_refl. reflexivity.
Qed.

Lemma complete_early (s : state) :
  expectedStep s <> -1 -> expectedStep s <> values_length ->
  exec complete s =
  exec (finalize
          (Some ("Observable completed unexpectedly after "
                 ++ number_toString (expectedStep s) ++ " value emissions. "
                 ++ (if (expectedStep s <? values_length)%Z
                     then "Missing values from observable."
                     else "Too many values on observable."))%string))
       s.
Proof.
  intros Hn Hl. unfold exec, complete, bind, read_step.
  destruct (Z.eqb_spec (expectedStep s) (-1)) as [|_]; [contradiction|].
  destruct (Z.eqb_spec (expectedStep s) values_length) as [|_];
    [contradiction|].
  reflexivity.
Qed.

(** ** The invariant of the reachable states *)

Lemma untouched_observation (e : effect) (s : state) :
  is_observation e = true -> untouched s -> untouched (tell_log e s).
Proof.
  intros He (Hp & Ht & Hu & H1 & H2 & H3 & H4 & H5).
  unfold untouched, tell_log; cbn -[count].
  rewrite !count_app, !count_cons, !count_nil.
  destruct e; try discriminate He; cbn; repeat split; lia || assumption.
Qed.

Lemma untouched_throw (err : E) (s : state) :
  untouched s -> untouched (tell_log (EToStringThrows err) s).
Proof.
  intros (Hp & Ht & Hu & H1 & H2 & H3 & H4 & H5).
  unfold untouched, tell_log; cbn -[count].
  rewrite !count_app, !count_cons, !count_nil.
  cbn; repeat split; lia || assumption.
Qed.

Lemma untouched_advance (z : Z) (s : state) :
  z <> -1 -> untouched s ->
  untouched (tell_log (EAssignStep z) (set_step z s)).
Proof.
  intros Hz (Hp & Ht & Hu & H1 & H2 & H3 & H4 & H5).
  unfold untouched, tell_log, set_step; cbn -[count].
  rewrite !count_app, !count_cons, !count_nil.
  apply Z.eqb_neq in Hz. cbn [is_settle is_setTimeout is_finalize
                              is_unsubscribe is_typeError].
  rewrite Hz. repeat split; lia || assumption.
Qed.

Lemma finalize_invariant (message : option string) (s : state) :
  untouched s -> invariant (exec (finalize message) s).
Proof.
  intros (Hp & Ht & Hu & H1 & H2 & H3 & H4 & H5).
  left. rewrite finalize_exec. split; [reflexivity|].
  unfold finalized_once; cbn -[count].
  rewrite Hp, !count_app, !count_cons, !count_nil.
  destruct message as [[|c m]|]; cbn;
    repeat split; try lia; try congruence.
Qed.

Lemma handler_invariant (ev : event) (s : state) :
  invariant s -> invariant (exec (handler ev) s).
Proof.
  intros [[Hf Hi] | [Hr Hu]].
  - rewrite handler_finalized by assumption. left; auto.
  - assert (Hn : expectedStep s <> -1) by lia.
    destruct ev as [value | err |]; cbn [handler].
    + destruct (Z.eq_dec (expectedStep s) values_length) as [He | He].
      * rewrite next_too_many by lia.
        apply finalize_invariant, untouched_observation; auto.
      * destruct (matcher value (values_at (expectedStep s))) eqn:Hm.
        -- rewrite next_match by (auto; lia). cbv zeta.
           match goal with
           | |- context [if ?b then _ else _] => destruct b
           end.
           ++ apply finalize_invariant, untouched_advance; [lia|].
              apply untouched_observation; auto.
           ++ right. split; [cbn; lia|].
              apply untouched_advance; [lia|].
              apply untouched_observation; auto.
        -- rewrite next_mismatch by (auto; lia).
           apply finalize_invariant.
           repeat apply untouched_observation; auto.
    + destruct (error_cases err s Hn)
        as [(_ & _ & ->) | [(d & _ & _ & ->) | (_ & _ & ->)]].
      * apply finalize_invariant; auto.
      * apply finalize_invariant, untouched_observation; auto.
      * right. split; [exact Hr | apply untouched_throw, Hu].
    + destruct (Z.eq_dec (expectedStep s) values_length) as [He | He].
      * rewrite complete_at_end by auto. apply finalize_invariant; auto.
      * rewrite complete_early by auto. apply finalize_invariant; auto.
Qed.

Lemma finalize_subs (message : option string) (s : state) :
  subs (exec (finalize message) s) = subs s.
Proof. rewrite finalize_exec. reflexivity. Qed.

Lemma handler_subs (ev : event) (s : state) :
  subs (exec (handler ev) s) = subs s.
Proof.
  destruct (Z.eq_dec (expectedStep s) (-1)) as [Hf | Hn].
  { rewrite handler_finalized by assumption. reflexivity. }
  destruct ev as [value | err |]; cbn [handler].
  - destruct (Z_lt_le_dec (expectedStep s) values_length) as [Hlt | Hge].
    + destruct (matcher value (values_at (expectedStep s))) eqn:Hm.
      * rewrite next_match by auto. cbv zeta.
        match goal with
        | |- context [if ?b then _ else _] => destruct b
        end; [rewrite finalize_subs|]; reflexivity.
      * rewrite next_mismatch by auto. rewrite finalize_subs. reflexivity.
    + rewrite next_too_many by auto. rewrite finalize_subs. reflexivity.
  - destruct (error_cases err s Hn)
      as [(_ & _ & ->) | [(d & _ & _ & ->) | (_ & _ & ->)]].
    + apply finalize_subs.
    + rewrite finalize_subs. reflexivity.
    + reflexivity.
  - destruct (Z.eq_dec (expectedStep s) values_length) as [He | He].
    + rewrite complete_at_end by auto. apply finalize_subs.
    + rewrite complete_early by auto. apply finalize_subs.
Qed.

Lemma deliver_app (evs1 evs2 : list event) (s : state) :
  deliver (evs1 ++ evs2) s = deliver evs2 (deliver evs1 s).
Proof. apply fold_left_app. Qed.

Lemma deliver_cons (ev : event) (evs : list event) (s : state) :
  deliver (ev :: evs) s = deliver evs (exec (handler ev) s).
Proof. reflexivity. Qed.

Lemma deliver_invariant (evs : list event) (s : state) :
  invariant s -> invariant (deliver evs s).
Proof.
  revert s. induction evs as [| ev evs IH]; intros s Hs; cbn; [assumption|].
  apply IH, handler_invariant, Hs.
Qed.

Lemma deliver_subs (evs : list event) (s : state) :
  subs (deliver evs s) = subs s.
Proof.
  revert s. induction evs as [| ev evs IH]; intros s; cbn; [reflexivity|].
  rewrite IH. apply handler_subs.
Qed.

Lemma initial_invariant : invariant initial.
Proof.
  right. split; [cbn; unfold values_length; lia|].
  unfold untouched; cbn. repeat split; reflexivity.
Qed.

Lemma matchObs_invariant (sync : list event) :
  invariant (matchObs sync) /\ subs (matchObs sync) = true.
Proof.
  split; [|reflexivity].
  pose proof (deliver_invariant sync initial initial_invariant) as H.
  pose proof (deliver_subs sync initial) as Hs. cbn in Hs.
  unfold matchObs. destruct H as [[Hf Hi] | [Hr Hu]].
  - left. split; [assumption|].
    destruct Hi as (H1 & H2 & H3 & H4 & H5 & H6 & H7 & H8).
    specialize (H8 Hs).
    unfold finalized_once; cbn. repeat split; auto.
  - right. split; assumption.
Qed.

Lemma run_turn_invariant (t : turn) (s : state) :
  invariant s /\ subs s = true ->
  invariant (run_turn s t) /\ subs (run_turn s t) = true.
Proof.
  intros [Hi Hs]. destruct t as [ev |]; cbn [run_turn].
  - split; [apply handler_invariant, Hi|].
    rewrite handler_subs. assumption.
  - destruct (timers s) as [| n] eqn:Ht; [auto|].
    unfold exec, unsubscribe_callback. cbn [subs set_timers]. rewrite Hs.
    cbn. split; [|assumption].
    destruct Hi as [[Hf Hi] | [Hr Hu]].
    + left. split; [assumption|].
      destruct Hi as (H1 & H2 & H3 & H4 & H5 & H6 & H7 & H8).
      unfold finalized_once, tell_log, set_unsubscribed, set_timers;
        cbn -[count].
      rewrite !count_app, !count_cons, !count_nil. cbn.
      repeat split; auto; try lia. congruence.
    + destruct Hu as (_ & Hz & _). congruence.
Qed.

Lemma turns_invariant (later : list turn) (s : state) :
  invariant s /\ subs s = true ->
  invariant (fold_left run_turn later s) /\
  subs (fold_left run_turn later s) = true.
Proof.
  revert s. induction later as [| t later IH]; intros s Hs; cbn;
    [assumption|].
  apply IH, run_turn_invariant, Hs.
Qed.

Lemma reachable_invariant (s : state) : reachable s -> invariant s.
Proof.
  intros [evs | sync later].
  - apply deliver_invariant, initial_invariant.
  - apply turns_invariant, matchObs_invariant.
Qed.

(** ** Timers do not change the verdict *)

Lemma finalize_same_verdict (message : option string) (s s' : state) :
  promise s = promise s' ->
  same_verdict (exec (finalize message) s) (exec (finalize message) s').
Proof.
  intros Hp. rewrite !finalize_exec. split; cbn; [reflexivity|].
  rewrite Hp. reflexivity.
Qed.

Lemma handler_same_verdict (ev : event) (s s' : state) :
  same_verdict s s' ->
  same_verdict (exec (handler ev) s) (exec (handler ev) s').
Proof.
  intros [Hst Hpr].
  destruct (Z.eq_dec (expectedStep s) (-1)) as [Hf | Hn].
  { rewrite !handler_finalized by congruence. split; assumption. }
  assert (Hn' : expectedStep s' <> -1) by congruence.
  destruct ev as [value | err |]; cbn [handler].
  - destruct (Z_lt_le_dec (expectedStep s) values_length) as [Hlt | Hge].
    + destruct (matcher value (values_at (expectedStep s))) eqn:Hm.
      * rewrite (next_match value s), (next_match value s')
          by (rewrite <- ?Hst; auto).
        cbv zeta. rewrite <- Hst.
        match goal with
        | |- context [if ?b then _ else _] => destruct b
        end; [apply finalize_same_verdict|split]; cbn; auto.
      * rewrite (next_mismatch value s), (next_mismatch value s')
          by (rewrite <- ?Hst; auto).
        rewrite <- Hst. apply finalize_same_verdict; cbn; auto.
    + rewrite (next_too_many value s), (next_too_many value s')
        by (rewrite <- ?Hst; auto).
      apply finalize_same_verdict; cbn; auto.
  - destruct expectError eqn:Hx;
      [destruct (Z.eq_dec (expectedStep s) values_length) as [He | He]|].
    + rewrite (error_expected err s), (error_expected err s')
        by (rewrite <- ?Hst; auto).
      apply finalize_same_verdict; auto.
    + destruct (toString err) as [d |] eqn:Ht.
      * rewrite (error_unexpected err d s), (error_unexpected err d s')
          by (rewrite <- ?Hst; auto).
        rewrite <- Hst. apply finalize_same_verdict; cbn; auto.
      * rewrite (error_throws err s), (error_throws err s')
          by (rewrite <- ?Hst; auto).
        split; assumption.
    + destruct (toString err) as [d |] eqn:Ht.
      * rewrite (error_unexpected err d s), (error_unexpected err d s')
          by (rewrite <- ?Hst; auto).
        rewrite <- Hst. apply finalize_same_verdict; cbn; auto.
      * rewrite (error_throws err s), (error_throws err s')
          by (rewrite <- ?Hst; auto).
        split; assumption.
  - destruct (Z.eq_dec (expectedStep s) values_length) as [He | He].
    + rewrite (complete_at_end s), (complete_at_end s')
        by (rewrite <- ?Hst; auto).
      apply finalize_same_verdict; auto.
    + rewrite (complete_early s), (complete_early s')
        by (rewrite <- ?Hst; auto).
      rewrite <- Hst. apply finalize_same_verdict; auto.
Qed.

Lemma deliver_same_verdict (evs : list event) (s s' : state) :
  same_verdict s s' -> same_verdict (deliver evs s) (deliver evs s').
Proof.
  revert s s'. induction evs as [| ev evs IH]; intros s s' H; cbn;
    [assumption|].
  apply IH, handler_same_verdict, H.
Qed.

Lemma turns_same_verdict (later : list turn) (s s' : state) :
  same_verdict s s' ->
  same_verdict (fold_left run_turn later s) (deliver (emissions later) s').
Proof.
  revert s s'. induction later as [| t later IH]; intros s s' H; cbn;
    [assumption|].
  destruct t as [ev |]; cbn [run_turn app].
  - apply IH, handler_same_verdict, H.
  - apply IH. destruct (timers s); [assumption|].
    unfold exec, unsubscribe_callback. cbn [subs set_timers].
    destruct (subs s); exact H.
Qed.

(** The verdict of a run is that of its handler calls in order, wherever
    [subscribe] returned and whenever the timers ran. *)
Lemma matchObservable_verdict (sync : list event) (later : list turn) :
  same_verdict (matchObservable sync later)
               (deliver (sync ++ emissions later) initial).
Proof.
  unfold matchObservable, matchObs. rewrite deliver_app.
  apply turns_same_verdict. split; reflexivity.
Qed.

(** ** Runs that follow the expected values *)

Lemma values_at_middle (pre post : list T) (e : T) :
  values = pre ++ e :: post ->
  values_at (Z.of_nat (List.length pre)) = e.
Proof.
  intros Hv. unfold values_at.
  destruct (Z.ltb_spec (Z.of_nat (List.length pre)) 0) as [Hneg|_]; [lia|].
  rewrite Nat2Z.id, Hv, app_nth2 by lia.
  rewrite Nat.sub_diag. reflexivity.
Qed.

(** While values match and success is not yet due, the cursor follows the
    values and nothing else happens to the promise. *)
Lemma deliver_matching (vs mid : list T) :
  all_match vs mid ->
  forall (pre rest : list T) (s : state),
    values = pre ++ mid ++ rest ->
    rest <> [] \/ expectComplete || expectError = true ->
    expectedStep s = Z.of_nat (List.length pre) ->
    expectedStep (deliver (map Next vs) s)
    = Z.of_nat (List.length pre + List.length mid) /\
    promise (deliver (map Next vs) s) = promise s.
Proof.
  induction 1 as [| v e vs mid Hm Hall IH]; intros pre rest s Hv Hc Hs.
  - cbn. rewrite Nat.add_0_r. auto.
  - cbn [map]. rewrite deliver_cons. cbn [handler].
    assert (Hlen : values_length
                   = Z.of_nat (List.length pre + S (List.length mid)
                               + List.length rest)).
    { unfold values_length. rewrite Hv, !length_app. cbn. f_equal. lia. }
    assert (He : values_at (expectedStep s) = e).
    { rewrite Hs. apply (values_at_middle pre (mid ++ rest)). exact Hv. }
    rewrite next_match by (rewrite ?He; auto; lia).
    cbv zeta.
    assert (Hb : negb expectComplete && negb expectError
                 && (expectedStep s + 1 =? values_length) = false).
    { destruct Hc as [Hr | Hf].
      - assert (List.length rest <> 0%nat)
          by (destruct rest; [congruence | cbn; lia]).
        apply andb_false_intro2, Z.eqb_neq. lia.
      - apply andb_false_intro1.
        destruct expectComplete, expectError; cbn in *; congruence. }
    rewrite Hb.
    match goal with
    | |- context [deliver _ ?s1] =>
        destruct (IH (pre ++ [e]) rest s1) as [Hst Hpr]
    end.
    + rewrite Hv, <- app_assoc. reflexivity.
    + exact Hc.
    + cbn. rewrite Hs, length_app. cbn. lia.
    + rewrite Hst, Hpr. cbn.
      rewrite length_app. cbn. split; [f_equal; lia | reflexivity].
Qed.

(** Every expected value has arrived, a terminal event is awaited. *)
Lemma deliver_all_values (vs : list T) :
  expectComplete || expectError = true ->
  all_match vs values ->
  expectedStep (deliver (map Next vs) initial) = values_length /\
  promise (deliver (map Next vs) initial) = Pending.
Proof.
  intros Hc Hall.
  destruct (deliver_matching vs values Hall [] [] initial) as [Hst Hpr];
    [rewrite app_nil_r; reflexivity | auto | reflexivity |].
  split; assumption.
Qed.

(** The expected values, then completion: success, whichever of the two
    flags is set. *)
Lemma values_then_complete (vs : list T) :
  expectComplete || expectError = true ->
  all_match vs values ->
  promise (deliver (map Next vs ++ [Complete]) initial) = Resolved.
Proof.
  intros Hc Hall.
  destruct (deliver_all_values vs Hc Hall) as [Hst Hpr].
  rewrite deliver_app, deliver_cons. cbn [deliver fold_left handler].
  rewrite complete_at_end, finalize_exec;
    [| pose proof (Zle_0_nat (List.length values));
       unfold values_length in *; lia | assumption].
  cbn. rewrite Hpr. reflexivity.
Qed.

(** ** What a finalized matcher does *)

Lemma handler_unsubscribed (ev : event) (s : state) :
  unsubscribed (exec (handler ev) s) = unsubscribed s.
Proof.
  destruct (Z.eq_dec (expectedStep s) (-1)) as [Hf | Hn].
  { rewrite handler_finalized by assumption. reflexivity. }
  destruct ev as [value | err |]; cbn [handler].
  - destruct (Z_lt_le_dec (expectedStep s) values_length) as [Hlt | Hge].
    + destruct (matcher value (values_at (expectedStep s))) eqn:Hm.
      * rewrite next_match by auto. cbv zeta.
        match goal with
        | |- context [if ?b then _ else _] => destruct b
        end; [rewrite finalize_exec|]; reflexivity.
      * rewrite next_mismatch by auto. rewrite finalize_exec. reflexivity.
    + rewrite next_too_many by auto. rewrite finalize_exec. reflexivity.
  - destruct (error_cases err s Hn)
      as [(_ & _ & ->) | [(d & _ & _ & ->) | (_ & _ & ->)]].
    + rewrite finalize_exec. reflexivity.
    + rewrite finalize_exec. reflexivity.
    + reflexivity.
  - destruct (Z.eq_dec (expectedStep s) values_length) as [He | He].
    + rewrite complete_at_end by auto. rewrite finalize_exec. reflexivity.
    + rewrite complete_early by auto. rewrite finalize_exec. reflexivity.
Qed.

Lemma deliver_finalized (evs : list event) (s : state) :
  expectedStep s = -1 -> deliver evs s = s.
Proof.
  intros Hf. induction evs as [| ev evs IH]; [reflexivity|].
  rewrite deliver_cons, handler_finalized; assumption.
Qed.

(** A turn of the event loop in a finalized state: at most the timer runs. *)
Lemma run_turn_finalized (t : turn) (s : state) :
  expectedStep s = -1 ->
  let s' := run_turn s t in
  expectedStep s' = -1 /\ promise s' = promise s /\
  count is_observation (log s') = count is_observation (log s) /\
  count is_settle (log s') = count is_settle (log s) /\
  count is_finalize (log s') = count is_finalize (log s) /\
  (unsubscribed s <= unsubscribed s')%nat.
Proof.
  intros Hf. destruct t as [ev |]; cbn [run_turn]; cbv zeta.
  - rewrite handler_finalized by assumption. repeat split; auto.
  - destruct (timers s) as [| n]; [repeat split; auto|].
    unfold exec, unsubscribe_callback. cbn [subs set_timers].
    destruct (subs s); unfold tell_log, set_unsubscribed; cbn -[count];
      rewrite !count_app, !count_cons, !count_nil; cbn;
      repeat split; auto; lia.
Qed.

Lemma turns_finalized (more : list turn) (s : state) :
  expectedStep s = -1 ->
  let s' := fold_left run_turn more s in
  expectedStep s' = -1 /\ promise s' = promise s /\
  count is_observation (log s') = count is_observation (log s) /\
  count is_settle (log s') = count is_settle (log s) /\
  count is_finalize (log s') = count is_finalize (log s) /\
  (unsubscribed s <= unsubscribed s')%nat.
Proof.
  revert s. induction more as [| t more IH]; intros s Hf; cbn.
  - repeat split; auto.
  - destruct (run_turn_finalized t s Hf) as (H1 & H2 & H3 & H4 & H5 & H6).
    destruct (IH (run_turn s t) H1) as (I1 & I2 & I3 & I4 & I5 & I6).
    cbv zeta in *. repeat split; try congruence. lia.
Qed.

(** ** The claims *)

(** C3. Once [finalize] has set the cursor to -1, nothing more is
    observed or settled.  In every reachable state [resolve] and [reject]
    have been called at most once in total; [finalize] assigns -1 as its
    first effect, then queues the timer, then settles; and in a state whose
    cursor is -1 every handler returns at once, leaving the state and the
    log as they are, so that any further events, inside [subscribe] or in
    later turns with timers in between, add no comparator call, no message
    construction and no settlement. *)
Theorem finalized_matcher_is_inert (s : state) :
  reachable s ->
  (count is_settle (log s) <= 1)%nat /\
  (forall message : option string,
      exists e : effect,
        is_settle e = true /\
        expectedStep (exec (finalize message) s) = -1 /\
        log (exec (finalize message) s)
        = log s ++ [EAssignStep (-1); ESetTimeout; e]) /\
  (expectedStep s = -1 ->
   (forall ev : event, handler ev s = (tt, s)) /\
   (forall evs : list event, deliver evs s = s) /\
   (forall more : list turn,
       let s' := fold_left run_turn more s in
       expectedStep s' = -1 /\ promise s' = promise s /\
       count is_observation (log s') = count is_observation (log s) /\
       count is_settle (log s') = count is_settle (log s))).
Proof.
  intros Hr. apply reachable_invariant in Hr. repeat split.
  - destruct Hr as [[_ Hi] | [_ Hu]].
    + destruct Hi as (_ & _ & H & _). lia.
    + destruct Hu as (_ & _ & _ & H & _). lia.
  - intros message. rewrite finalize_exec. cbn.
    destruct message as [[| c m] |]; eexists; repeat split; reflexivity.
  - destruct ev; cbn [handler];
      [apply next_finalized | apply error_finalized
       | apply complete_finalized]; assumption.
  - intros evs. apply deliver_finalized. assumption.
  - apply (turns_finalized more s H).
  - apply (turns_finalized more s H).
  - apply (turns_finalized more s H).
  - apply (turns_finalized more s H).
Qed.

(** C4. With the default flags ([expectComplete] true, [expectError]
    false), a stream that emits values matching the expected ones in order
    and then completes resolves the promise, whichever part of the stream
    is delivered inside [subscribe] and wherever timers run. *)
Theorem default_flags_values_then_complete (vs : list T)
    (sync : list event) (later : list turn) :
  expectComplete = true -> expectError = false ->
  all_match vs values ->
  sync ++ emissions later = map Next vs ++ [Complete] ->
  promise (matchObservable sync later) = Resolved.
Proof.
  intros Hc He Hall Hev.
  destruct (matchObservable_verdict sync later) as [_ Hp].
  rewrite Hp, Hev. apply values_then_complete; [|assumption].
  rewrite Hc. reflexivity.
Qed.

(** C5. In a reachable state whose cursor is an index [i] of the expected
    values, a value that the comparator rejects against [values[i]]
    rejects the promise, and the message names [i], the printed value
    and the printed expected value. *)
Theorem mismatch_rejects_naming_index (s : state) (i : Z) (value : T) :
  reachable s ->
  expectedStep s = i -> 0 <= i < values_length ->
  matcher value (values_at i) = false ->
  promise (exec (next value) s)
  = Rejected ("Values at index " ++ number_toString i
              ++ " are expected to match. Received:" ++ nl
              ++ valuePrinter value ++ nl ++ "Expected:" ++ nl
              ++ valuePrinter (values_at i))%string /\
  expectedStep (exec (next value) s) = -1.
Proof.
  intros Hr Hs Hi Hm. apply reachable_invariant in Hr.
  destruct Hr as [[Hf _] | [_ Hu]]; [lia|].
  destruct Hu as (Hp & _). subst i.
  rewrite next_mismatch by (auto; lia).
  rewrite finalize_exec. cbn. rewrite Hp. split; reflexivity.
Qed.

(** C6. In a reachable state that is not finalized and whose cursor is at
    or past the number of expected values, a value rejects the promise
    with the "Too many values" message and the printed value. *)
Theorem extra_value_rejects (s : state) (value : T) :
  reachable s ->
  expectedStep s <> -1 -> values_length <= expectedStep s ->
  promise (exec (next value) s)
  = Rejected ("Too many values on observable: "
              ++ valuePrinter value)%string /\
  expectedStep (exec (next value) s) = -1.
Proof.
  intros Hr Hn Hge. apply reachable_invariant in Hr.
  destruct Hr as [[Hf _] | [_ Hu]]; [contradiction|].
  destruct Hu as (Hp & _).
  rewrite next_too_many by assumption.
  rewrite finalize_exec. cbn. rewrite Hp. split; reflexivity.
Qed.

(** With both flags false, values matching a proper prefix of the
    expected ones leave the promise pending. *)
Lemma proper_prefix_pending (vs mid rest : list T) :
  values = mid ++ rest -> rest <> [] -> all_match vs mid ->
  expectedStep (deliver (map Next vs) initial)
  = Z.of_nat (List.length mid) /\
  promise (deliver (map Next vs) initial) = Pending.
Proof.
  intros Hv Hr Hall.
  apply (deliver_matching vs mid Hall [] rest initial); auto.
Qed.

(** C7. With both flags false and at least one expected value, the
    promise is resolved by the value that matches the last expected one:
    it is resolved once the stream has delivered values matching all the
    expected ones, with no terminal event, and it is still pending after
    any shorter part of these values. *)
Theorem no_flags_success_at_last_value (vs : list T) :
  expectComplete = false -> expectError = false ->
  values <> [] -> all_match vs values ->
  (forall (sync : list event) (later : list turn),
      sync ++ emissions later = map Next vs ->
      promise (matchObservable sync later) = Resolved) /\
  (forall (sync : list event) (later : list turn) (shorter more : list T),
      vs = shorter ++ more -> more <> [] ->
      sync ++ emissions later = map Next shorter ->
      promise (matchObservable sync later) = Pending).
Proof.
  intros Hc He Hne Hall. split.
  - intros sync later Hev.
    destruct (matchObservable_verdict sync later) as [_ Hp].
    rewrite Hp, Hev. clear Hp Hev sync later.
    destruct (exists_last Hne) as (mid & e & Hv).
    unfold all_match in Hall. rewrite Hv in Hall.
    apply Forall2_app_inv_r in Hall.
    destruct Hall as (vs1 & vs2 & H1 & H2 & ->).
    inversion H2 as [| v e' vs2' r Hm Hnil]; subst. inversion Hnil; subst.
    destruct (proper_prefix_pending vs1 mid [e] Hv) as [Hst Hpr];
      [discriminate | exact H1 |].
    rewrite map_app, deliver_app. cbn [map].
    rewrite deliver_cons. cbn [deliver fold_left handler].
    assert (Hlen : values_length = Z.of_nat (List.length mid) + 1).
    { unfold values_length. rewrite Hv, length_app. cbn. lia. }
    assert (Hat : values_at (Z.of_nat (List.length mid)) = e).
    { apply (values_at_middle mid []). exact Hv. }
    rewrite next_match by (rewrite Hst, ?Hat; auto; lia).
    cbv zeta. rewrite Hc, He, Hst, Hlen, Z.eqb_refl. cbn [negb andb].
    rewrite finalize_exec. cbn. rewrite Hpr. reflexivity.
  - intros sync later shorter more Hvs Hmore Hev.
    destruct (matchObservable_verdict sync later) as [_ Hp].
    rewrite Hp, Hev. clear Hp Hev sync later.
    unfold all_match in Hall. rewrite Hvs in Hall.
    apply Forall2_app_inv_l in Hall.
    destruct Hall as (mid & rest & H1 & H2 & Hv).
    apply (proper_prefix_pending shorter mid rest Hv); [|exact H1].
    intros ->. inversion H2; subst. contradiction.
Qed.


(** C9. In every reachable state the cursor is -1 or lies between 0 and
    the number of expected values.  So when [complete] reaches its
    conditional expression the test [expectedStep < values.length] holds:
    the handler does nothing (finalized), resolves (cursor at the end), or
    rejects with the "Missing values" wording, never with the "Too many
    values" one. *)
Theorem cursor_stays_in_range (s : state) :
  reachable s ->
  (expectedStep s = -1 \/ 0 <= expectedStep s <= values_length) /\
  (expectedStep s <> -1 -> expectedStep s <> values_length ->
   (expectedStep s <? values_length) = true) /\
  (exec complete s = s \/
   exec complete s = exec (finalize None) s \/
   exec complete s
   = exec (finalize
             (Some ("Observable completed unexpectedly after "
                    ++ number_toString (expectedStep s)
                    ++ " value emissions. "
                    ++ "Missing values from observable.")%string)) s).
Proof.
  intros Hr. apply reachable_invariant in Hr.
  assert (Hrange : expectedStep s = -1 \/ 0 <= expectedStep s <= values_length)
    by (destruct Hr as [[Hf _] | [Hr _]]; auto).
  split; [exact Hrange|]. split.
  - intros Hn Hl. apply Z.ltb_lt. lia.
  - destruct (Z.eq_dec (expectedStep s) (-1)) as [Hf | Hn].
    { left. unfold exec. rewrite complete_finalized by assumption.
      reflexivity. }
    destruct (Z.eq_dec (expectedStep s) values_length) as [He | He].
    { right; left. apply complete_at_end; assumption. }
    right; right. rewrite complete_early by assumption.
    assert (Hlt : (expectedStep s <? values_length) = true)
      by (apply Z.ltb_lt; lia).
    rewrite Hlt. reflexivity.
Qed.

(** Once finalized with [subs] assigned, a timer turn leaves exactly one
    completed [unsubscribe], and later turns keep it so. *)
Lemma timer_releases_once (more : list turn) (s : state) :
  invariant s -> subs s = true -> expectedStep s = -1 ->
  In Timeout more ->
  unsubscribed (fold_left run_turn more s) = 1%nat.
Proof.
  revert s. induction more as [| t more IH]; intros s Hi Hs Hf Hin;
    [contradiction|].
  cbn [fold_left].
  destruct (run_turn_invariant t s (conj Hi Hs)) as [Hi' Hs'].
  destruct (run_turn_finalized t s Hf) as (Hf' & _).
  cbv zeta in Hf'.
  destruct Hin as [-> | Hin]; [|apply IH; assumption].
  assert (Hone : unsubscribed (run_turn s Timeout) = 1%nat).
  { destruct Hi as [[_ Hfin] | [Hr _]]; [|lia].
    destruct Hfin as (_ & Hsum & _).
    cbn [run_turn]. destruct (timers s) as [| n] eqn:Ht; [lia|].
    unfold exec, unsubscribe_callback. cbn [subs set_timers].
    rewrite Hs. cbn. lia. }
  destruct (turns_finalized more _ Hf') as (_ & _ & _ & _ & _ & Hmono).
  cbv zeta in Hmono.
  destruct (turns_invariant more _ (conj Hi' Hs')) as [Hi'' _].
  destruct (turns_finalized more _ Hf') as (Hf'' & _). cbv zeta in Hf''.
  destruct Hi'' as [[_ Hfin] | [Hr _]]; [|lia].
  destruct Hfin as (_ & Hsum & _). lia.
Qed.

(** C10. The subscription is released once and only after [finalize].
    A call of [finalize] queues exactly one timer and calls [unsubscribe]
    itself not at all, and no handler does.  In every reachable state as
    many timers have been queued as [finalize] has run, which is at most
    once; [unsubscribe] has been called at most as often, never while
    [subs] was unassigned (so never inside [subscribe], and never on an
    unassigned [subs]) and never in a state that is not finalized.  After
    finalization a later timer turn leaves exactly one completed call. *)
Theorem unsubscribe_once_after_finalize (s : state) :
  reachable s ->
  (forall message : option string,
      let s' := exec (finalize message) s in
      timers s' = S (timers s) /\ unsubscribed s' = unsubscribed s /\
      count is_setTimeout (log s') = S (count is_setTimeout (log s)) /\
      count is_unsubscribe (log s') = count is_unsubscribe (log s)) /\
  (forall ev : event, unsubscribed (exec (handler ev) s) = unsubscribed s) /\
  count is_setTimeout (log s) = count is_finalize (log s) /\
  count is_unsubscribe (log s) = unsubscribed s /\
  (unsubscribed s <= count is_finalize (log s) <= 1)%nat /\
  (expectedStep s <> -1 -> unsubscribed s = 0%nat) /\
  (subs s = false -> unsubscribed s = 0%nat) /\
  count is_typeError (log s) = 0%nat /\
  (expectedStep s = -1 -> subs s = true ->
   forall more : list turn,
     In Timeout more -> unsubscribed (fold_left run_turn more s) = 1%nat).
Proof.
  intros Hr. pose proof (reachable_invariant s Hr) as Hi.
  split; [|split].
  - intros message. cbv zeta. rewrite finalize_exec. cbn -[count].
    rewrite !count_app, !count_cons, !count_nil.
    destruct message as [[| c m] |]; cbn; repeat split; lia.
  - intros ev. apply handler_unsubscribed.
  - destruct Hi as [[Hf Hfin] | [Hrange Hu]].
    + destruct Hfin as (H1 & H2 & H3 & H4 & H5 & H6 & H7 & H8).
      repeat split; try lia; auto.
      intros _ Hs more Hin.
      apply timer_releases_once; auto.
      left. split; [assumption|]. repeat split; auto.
    + destruct Hu as (H1 & H2 & H3 & H4 & H5 & H6 & H7 & H8).
      repeat split; try lia; auto.
Qed.

(** ** Whole runs: the first terminal condition decides *)

Lemma run_promise (sync : list event) (later : list turn) :
  promise (matchObservable sync later)
  = promise (deliver (sync ++ emissions later) initial).
Proof. apply matchObservable_verdict. Qed.

Lemma run_expectedStep (sync : list event) (later : list turn) :
  expectedStep (matchObservable sync later)
  = expectedStep (deliver (sync ++ emissions later) initial).
Proof. apply matchObservable_verdict. Qed.

(** What is delivered after [finalize] changes nothing. *)
Lemma deliver_after_finalize
    (message : option string) (more : list event) (s : state) :
  deliver more (exec (finalize message) s) = exec (finalize message) s.
Proof. apply deliver_finalized. rewrite finalize_exec. reflexivity. Qed.

(** The state after values matching the first expected ones, as long as
    success is not yet due. *)
Lemma matched_prefix_state (vs mid rest : list T) :
  values = mid ++ rest -> all_match vs mid ->
  rest <> [] \/ expectComplete || expectError = true ->
  expectedStep (deliver (map Next vs) initial) = Z.of_nat (List.length mid) /\
  promise (deliver (map Next vs) initial) = Pending.
Proof.
  intros Hv Hall Hc.
  apply (deliver_matching vs mid Hall [] rest initial); auto.
Qed.

Lemma values_length_app (mid rest : list T) :
  values = mid ++ rest ->
  values_length = Z.of_nat (List.length mid) + Z.of_nat (List.length rest).
Proof. intros Hv. unfold values_length. rewrite Hv, length_app. lia. Qed.

(** With both flags false, the value matching the last expected one
    finalizes with success. *)
Lemma no_flags_last_value (vs : list T) :
  expectComplete = false -> expectError = false ->
  values <> [] -> all_match vs values ->
  expectedStep (deliver (map Next vs) initial) = -1 /\
  promise (deliver (map Next vs) initial) = Resolved.
Proof.
  intros Hc He Hne Hall.
  destruct (exists_last Hne) as (mid & e & Hv).
  unfold all_match in Hall. rewrite Hv in Hall.
  apply Forall2_app_inv_r in Hall.
  destruct Hall as (vs1 & vs2 & H1 & H2 & ->).
  inversion H2 as [| v e' vs2' r Hm Hnil]; subst. inversion Hnil; subst.
  destruct (matched_prefix_state vs1 mid [e] Hv H1) as [Hst Hpr];
    [left; discriminate|].
  rewrite map_app, deliver_app. cbn [map]. rewrite deliver_cons.
  cbn [deliver fold_left handler].
  pose proof (values_length_app mid [e] Hv) as Hlen. cbn in Hlen.
  assert (Hat : values_at (Z.of_nat (List.length mid)) = e)
    by (apply (values_at_middle mid []); exact Hv).
  rewrite next_match by (rewrite Hst, ?Hat; auto; lia).
  cbv zeta. rewrite Hc, He, Hst.
  replace (Z.of_nat (List.length mid) + 1 =? values_length) with true
    by (symmetry; apply Z.eqb_eq; lia).
  cbn [negb andb]. rewrite finalize_exec. cbn. rewrite Hpr. auto.
Qed.


(** X2. Values matching the first expected ones followed by a value that
    the comparator rejects: the promise is rejected with the message for
    that index, under any flags and whatever the stream delivers
    afterwards. *)
Theorem first_mismatch_decides
    (vs mid rest : list T) (e v : T) (more : list event)
    (sync : list event) (later : list turn) :
  values = mid ++ e :: rest -> all_match vs mid ->
  matcher v e = false ->
  sync ++ emissions later = map Next vs ++ Next v :: more ->
  promise (matchObservable sync later)
  = Rejected ("Values at index "
              ++ number_toString (Z.of_nat (List.length mid))
              ++ " are expected to match. Received:" ++ nl
              ++ valuePrinter v ++ nl ++ "Expected:" ++ nl
              ++ valuePrinter e)%string.
Proof.
  intros Hv Hall Hm Hev. rewrite run_promise, Hev, deliver_app, deliver_cons.
  destruct (matched_prefix_state vs mid (e :: rest) Hv Hall) as [Hst Hpr];
    [left; discriminate|].
  pose proof (values_length_app mid (e :: rest) Hv) as Hlen. cbn in Hlen.
  pose proof (values_at_middle mid rest e Hv) as Hat.
  cbn [handler].
  rewrite next_mismatch by (rewrite Hst, ?Hat; auto; lia).
  rewrite deliver_after_finalize, finalize_exec. cbn.
  rewrite Hpr, Hst, Hat. reflexivity.
Qed.

(** X3. Completion before all expected values have arrived rejects the
    promise with the count of values so far and the "Missing values"
    wording, under any flags. *)
Theorem early_completion_rejects
    (vs mid rest : list T) (more : list event)
    (sync : list event) (later : list turn) :
  values = mid ++ rest -> rest <> [] -> all_match vs mid ->
  sync ++ emissions later = map Next vs ++ Complete :: more ->
  promise (matchObservable sync later)
  = Rejected ("Observable completed unexpectedly after "
              ++ number_toString (Z.of_nat (List.length mid))
              ++ " value emissions. "
              ++ "Missing values from observable.")%string.
Proof.
  intros Hv Hr Hall Hev. rewrite run_promise, Hev, deliver_app, deliver_cons.
  destruct (matched_prefix_state vs mid rest Hv Hall) as [Hst Hpr]; [auto|].
  pose proof (values_length_app mid rest Hv) as Hlen.
  assert (List.length rest <> 0%nat)
    by (destruct rest; [congruence | cbn; lia]).
  cbn [handler]. rewrite complete_early by (rewrite Hst; lia).
  rewrite deliver_after_finalize, finalize_exec. cbn. rewrite Hpr, Hst.
  replace (Z.of_nat (List.length mid) <? values_length) with true
    by (symmetry; apply Z.ltb_lt; lia).
  reflexivity.
Qed.

(** X4. An error before all expected values have arrived, with a value
    whose [toString] returns, rejects the promise with the cursor and the
    returned description, also when [expectError] is set. *)
Theorem early_error_rejects
    (vs mid rest : list T) (err : E) (description : string)
    (more : list event) (sync : list event) (later : list turn) :
  values = mid ++ rest -> rest <> [] -> all_match vs mid ->
  toString err = Some description ->
  sync ++ emissions later = map Next vs ++ Error err :: more ->
  promise (matchObservable sync later)
  = Rejected ("Observable errored unexpectedly before emission index "
              ++ number_toString (Z.of_nat (List.length mid))
              ++ ". Error: " ++ description)%string.
Proof.
  intros Hv Hr Hall Ht Hev.
  rewrite run_promise, Hev, deliver_app, deliver_cons.
  destruct (matched_prefix_state vs mid rest Hv Hall) as [Hst Hpr]; [auto|].
  pose proof (values_length_app mid rest Hv) as Hlen.
  assert (List.length rest <> 0%nat)
    by (destruct rest; [congruence | cbn; lia]).
  cbn [handler].
  rewrite (error_unexpected err description) by (rewrite ?Hst; auto; lia).
  rewrite deliver_after_finalize, finalize_exec. cbn. rewrite Hpr, Hst.
  reflexivity.
Qed.

(** X5. With [expectError] set, values matching all the expected ones
    followed by an error resolve the promise, whatever [expectComplete]
    is. *)
Theorem expected_error_resolves
    (vs : list T) (err : E) (more : list event)
    (sync : list event) (later : list turn) :
  expectError = true -> all_match vs values ->
  sync ++ emissions later = map Next vs ++ Error err :: more ->
  promise (matchObservable sync later) = Resolved.
Proof.
  intros He Hall Hev. rewrite run_promise, Hev, deliver_app, deliver_cons.
  destruct (deliver_all_values vs) as [Hst Hpr];
    [rewrite He; apply orb_true_r | assumption |].
  pose proof (Zle_0_nat (List.length values)) as Hpos.
  cbn [handler].
  rewrite error_expected by (auto; rewrite Hst; unfold values_length; lia).
  rewrite deliver_after_finalize, finalize_exec. cbn. rewrite Hpr.
  reflexivity.
Qed.

(** X6. With [expectComplete] set and [expectError] not, values matching
    all the expected ones followed by an error, with a value whose
    [toString] returns, reject the promise; the message gives the number of
    expected values as the index, and the returned description. *)
Theorem unexpected_error_after_values_rejects
    (vs : list T) (err : E) (description : string) (more : list event)
    (sync : list event) (later : list turn) :
  expectComplete = true -> expectError = false -> all_match vs values ->
  toString err = Some description ->
  sync ++ emissions later = map Next vs ++ Error err :: more ->
  promise (matchObservable sync later)
  = Rejected ("Observable errored unexpectedly before emission index "
              ++ number_toString values_length
              ++ ". Error: " ++ description)%string.
Proof.
  intros Hc He Hall Ht Hev.
  rewrite run_promise, Hev, deliver_app, deliver_cons.
  destruct (deliver_all_values vs) as [Hst Hpr];
    [rewrite Hc; reflexivity | assumption |].
  pose proof (Zle_0_nat (List.length values)) as Hpos.
  cbn [handler].
  rewrite (error_unexpected err description)
    by (auto; rewrite Hst; unfold values_length; lia).
  rewrite deliver_after_finalize, finalize_exec. cbn. rewrite Hpr, Hst.
  reflexivity.
Qed.

(** X7. With a flag set, one value more than expected rejects the promise
    with the "Too many values" message and the printed value. *)
Theorem extra_value_after_values_rejects
    (vs : list T) (v : T) (more : list event)
    (sync : list event) (later : list turn) :
  expectComplete || expectError = true -> all_match vs values ->
  sync ++ emissions later = map Next vs ++ Next v :: more ->
  promise (matchObservable sync later)
  = Rejected ("Too many values on observable: " ++ valuePrinter v)%string.
Proof.
  intros Hc Hall Hev. rewrite run_promise, Hev, deliver_app, deliver_cons.
  destruct (deliver_all_values vs Hc Hall) as [Hst Hpr].
  pose proof (Zle_0_nat (List.length values)) as Hpos.
  cbn [handler].
  rewrite next_too_many by (rewrite Hst; unfold values_length; lia).
  rewrite deliver_after_finalize, finalize_exec. cbn. rewrite Hpr.
  reflexivity.
Qed.

(** X8. With both flags false and at least one expected value, the rest of
    the stream is not observed: after values matching all the expected
    ones the promise is resolved whatever follows, be it a value, an error
    or a completion. *)
Theorem no_flags_rest_not_observed
    (vs : list T) (more : list event)
    (sync : list event) (later : list turn) :
  expectComplete = false -> expectError = false ->
  values <> [] -> all_match vs values ->
  sync ++ emissions later = map Next vs ++ more ->
  promise (matchObservable sync later) = Resolved.
Proof.
  intros Hc He Hne Hall Hev. rewrite run_promise, Hev, deliver_app.
  destruct (no_flags_last_value vs Hc He Hne Hall) as [Hst Hpr].
  rewrite deliver_finalized; assumption.
Qed.

(** X9. As long as success is not due, matching values only move the
    cursor: after values matching the first expected ones the promise is
    pending and the cursor is their number, provided an expected value is
    still missing or a flag asks for a terminal event.  In particular a
    stream that emits all the expected values and never terminates leaves
    the promise pending when a flag is set. *)
Theorem matching_values_keep_pending
    (vs mid rest : list T) (sync : list event) (later : list turn) :
  values = mid ++ rest -> all_match vs mid ->
  rest <> [] \/ expectComplete || expectError = true ->
  sync ++ emissions later = map Next vs ->
  promise (matchObservable sync later) = Pending /\
  expectedStep (matchObservable sync later) = Z.of_nat (List.length mid).
Proof.
  intros Hv Hall Hc Hev. rewrite run_promise, run_expectedStep, Hev.
  destruct (matched_prefix_state vs mid rest Hv Hall Hc) as [Hst Hpr].
  split; assumption.
Qed.

(** X12. With both flags set either terminal event is accepted: values
    matching all the expected ones followed by a completion or by an error
    resolve the promise. *)
Theorem both_flags_accept_either_end
    (vs : list T) (final : event) (more : list event)
    (sync : list event) (later : list turn) :
  expectComplete = true -> expectError = true -> all_match vs values ->
  (final = Complete \/ exists err : E, final = Error err) ->
  sync ++ emissions later = map Next vs ++ final :: more ->
  promise (matchObservable sync later) = Resolved.
Proof.
  intros Hc He Hall Hfinal Hev.
  rewrite run_promise, Hev, deliver_app, deliver_cons.
  destruct (deliver_all_values vs) as [Hst Hpr];
    [rewrite Hc; reflexivity | assumption |].
  pose proof (Zle_0_nat (List.length values)) as Hpos.
  assert (Hn : expectedStep (deliver (map Next vs) initial) <> -1)
    by (rewrite Hst; unfold values_length; lia).
  destruct Hfinal as [-> | [err ->]]; cbn [handler].
  - rewrite complete_at_end by assumption.
    rewrite deliver_after_finalize, finalize_exec. cbn. rewrite Hpr.
    reflexivity.
  - rewrite error_expected by assumption.
    rewrite deliver_after_finalize, finalize_exec. cbn. rewrite Hpr.
    reflexivity.
Qed.

(** ** What the comparator and the printer are called with *)

Lemma values_at_in_range (i : Z) :
  0 <= i < values_length ->
  nth_error values (Z.to_nat i) = Some (values_at i).
Proof.
  intros Hi. unfold values_at, values_length in *.
  destruct (Z.ltb_spec i 0) as [Hneg | _]; [lia|].
  apply nth_error_nth'. lia.
Qed.

Lemma finalize_log_invariant (message : option string) (s : state) :
  promise s = Pending ->
  Forall expected_in_values (log s) ->
  (count is_compare (log s) <= List.length values)%nat ->
  (truthy message = false -> count is_print (log s) = 0%nat) ->
  log_invariant (exec (finalize message) s).
Proof.
  intros Hp Hall Hc Hpr. rewrite finalize_exec.
  unfold log_invariant. cbn -[count]. rewrite Hp.
  rewrite !count_app, !count_cons, !count_nil.
  split; [|split; [|split]].
  - apply Forall_app. split; [assumption|].
    destruct message as [[| c m] |]; repeat constructor.
  - destruct message as [[| c m] |]; cbn; lia.
  - intros H. contradiction H. reflexivity.
  - destruct message as [[| c m] |]; cbn.
    + intros _. rewrite Hpr by reflexivity. reflexivity.
    + intros [H | H]; discriminate H.
    + intros _. rewrite Hpr by reflexivity. reflexivity.
Qed.

Ltac extend_log :=
  rewrite <- ?app_assoc; apply Forall_app; split; [assumption|];
  repeat first [assumption | exact I | apply Forall_cons | apply Forall_nil].

Ltac finalize_keeps_log :=
  apply finalize_log_invariant; cbn -[count];
  rewrite ?count_app, ?count_cons, ?count_nil; cbn;
  auto; try lia; try discriminate; try extend_log.

Lemma handler_log_invariant (ev : event) (s : state) :
  invariant s -> log_invariant s -> log_invariant (exec (handler ev) s).
Proof.
  intros [[Hf Hi] | [Hr Hu]] Hl.
  { rewrite handler_finalized by assumption. exact Hl. }
  assert (Hn : expectedStep s <> -1) by lia.
  destruct Hu as (Hp & _).
  destruct Hl as (Hall & Hle & Hstep & Hprint).
  specialize (Hstep Hn). specialize (Hprint (or_introl Hp)).
  destruct ev as [value | err |]; cbn [handler].
  - destruct (Z.eq_dec (expectedStep s) values_length) as [He | He].
    + rewrite next_too_many by lia. finalize_keeps_log.
    + assert (Hin : expected_in_values
                      (ECallMatcher value (values_at (expectedStep s)))).
      { exists (Z.to_nat (expectedStep s)).
        apply values_at_in_range. lia. }
      assert (Hlt : (count is_compare (log s) < List.length values)%nat)
        by (unfold values_length in *; lia).
      destruct (matcher value (values_at (expectedStep s))) eqn:Hm.
      * rewrite next_match by (auto; lia). cbv zeta.
        match goal with
        | |- context [if ?b then _ else _] => destruct b
        end.
        -- finalize_keeps_log.
        -- unfold log_invariant; cbn -[count].
           rewrite !count_app, !count_cons, !count_nil. cbn.
           split; [extend_log | repeat split; lia].
      * rewrite next_mismatch by (auto; lia). finalize_keeps_log.
  - destruct (error_cases err s Hn)
      as [(_ & _ & ->) | [(d & _ & _ & ->) | (_ & _ & ->)]].
    + finalize_keeps_log.
    + finalize_keeps_log.
    + unfold log_invariant; cbn -[count].
      rewrite !count_app, !count_cons, !count_nil. cbn.
      split; [extend_log | repeat split; intros; lia].
  - destruct (Z.eq_dec (expectedStep s) values_length) as [He | He].
    + rewrite complete_at_end by auto. finalize_keeps_log.
    + rewrite complete_early by auto. finalize_keeps_log.
Qed.

Lemma deliver_log_invariant (evs : list event) (s : state) :
  invariant s -> log_invariant s -> log_invariant (deliver evs s).
Proof.
  revert s. induction evs as [| ev evs IH]; intros s Hi Hl; [exact Hl|].
  rewrite deliver_cons.
  apply IH; [apply handler_invariant | apply handler_log_invariant];
    assumption.
Qed.

Lemma run_turn_log_invariant (t : turn) (s : state) :
  invariant s -> log_invariant s -> log_invariant (run_turn s t).
Proof.
  intros Hi Hl. destruct t as [ev |]; cbn [run_turn].
  - apply handler_log_invariant; assumption.
  - destruct (timers s) as [| n]; [exact Hl|].
    destruct Hl as (Hall & Hle & Hstep & Hprint).
    unfold exec, unsubscribe_callback. cbn [subs set_timers].
    destruct (subs s); unfold log_invariant; cbn -[count];
      rewrite !count_app, !count_cons, !count_nil; cbn;
      (split; [apply Forall_app; split; [assumption | repeat constructor]
              | repeat split; try lia; intros H;
                rewrite ?Nat.add_0_r; auto ]).
Qed.

Lemma turns_log_invariant (later : list turn) (s : state) :
  invariant s /\ subs s = true -> log_invariant s ->
  log_invariant (fold_left run_turn later s).
Proof.
  revert s. induction later as [| t later IH]; intros s Hi Hl; [exact Hl|].
  cbn [fold_left].
  apply IH; [apply run_turn_invariant, Hi|].
  apply run_turn_log_invariant; [apply Hi | exact Hl].
Qed.

Lemma reachable_log_invariant (s : state) : reachable s -> log_invariant s.
Proof.
  assert (H0 : log_invariant initial).
  { unfold log_invariant; cbn. repeat split; auto; lia. }
  intros [evs | sync later].
  - apply deliver_log_invariant; [apply initial_invariant | exact H0].
  - apply turns_log_invariant; [apply matchObs_invariant|].
    apply (deliver_log_invariant sync initial initial_invariant H0).
Qed.

(** X11. In every reachable state the comparator has been called at most
    once per expected value, each time with an element of [values] as its
    second argument, and, while the promise is pending, exactly as often as
    the cursor says; [valuePrinter] and [toString] have not been called
    unless the promise is rejected. *)
Theorem comparator_and_printer_calls (s : state) :
  reachable s ->
  Forall expected_in_values (log s) /\
  (count is_compare (log s) <= List.length values)%nat /\
  (promise s = Pending ->
   Z.of_nat (count is_compare (log s)) = expectedStep s) /\
  (promise s = Pending \/ promise s = Resolved ->
   count is_print (log s) = 0%nat).
Proof.
  intros Hr. pose proof (reachable_log_invariant s Hr) as Hl.
  destruct Hl as (Hall & Hle & Hstep & Hprint).
  repeat split; auto.
  intros Hp. apply Hstep.
  apply reachable_invariant in Hr.
  destruct Hr as [[_ Hi] | [Hrange _]]; [|lia].
  destruct Hi as (Hnp & _). contradiction.
Qed.


End Matcher.

Arguments Next {T E} value.
Arguments Error {T E} err.
Arguments Complete {T E}.
Arguments Deliver {T E} ev.
Arguments Timeout {T E}.
Arguments expectedStep {T E} s.
Arguments subs {T E} s.
Arguments promise {T E} s.
Arguments timers {T E} s.
Arguments unsubscribed {T E} s.
Arguments log {T E} s.
Arguments exec {T E A} m s.

(** ** [expectComplete] next to [expectError] *)

Lemma handler_with_expectError
    (T E : Type) (undefined : T) (toString : E -> option string) (values : list T)
    (matcher : T -> T -> bool) (valuePrinter : T -> string)
    (expectComplete expectComplete' : bool)
    (ev : event T E) (s : state T E) :
  handler T E undefined toString values expectComplete true matcher
    valuePrinter ev s
  = handler T E undefined toString values expectComplete' true matcher
      valuePrinter ev s.
Proof.
  destruct ev as [value | err |]; [|reflexivity|reflexivity].
  destruct expectComplete, expectComplete'; reflexivity.
Qed.

(** X10. Once [expectError] is set, [expectComplete] has no effect: the
    two runs go through the same states, effect for effect. *)
Theorem expectComplete_unused_with_expectError
    (T E : Type) (undefined : T) (toString : E -> option string) (values : list T)
    (matcher : T -> T -> bool) (valuePrinter : T -> string)
    (expectComplete expectComplete' : bool)
    (sync : list (event T E)) (later : list (turn T E)) :
  matchObservable T E undefined toString values expectComplete true matcher
    valuePrinter sync later
  = matchObservable T E undefined toString values expectComplete' true
      matcher valuePrinter sync later.
Proof.
  unfold matchObservable, matchObs.
  assert (Hd : forall evs s,
             deliver T E undefined toString values expectComplete true
               matcher valuePrinter evs s
             = deliver T E undefined toString values expectComplete' true
                 matcher valuePrinter evs s).
  { induction evs as [| ev evs IH]; intros s; [reflexivity|].
    rewrite !deliver_cons. unfold exec.
    rewrite (handler_with_expectError T E undefined toString values matcher
               valuePrinter expectComplete expectComplete').
    apply IH. }
  rewrite Hd.
  generalize (set_subs T E true
                (deliver T E undefined toString values expectComplete' true
                   matcher valuePrinter sync (initial T E))).
  induction later as [| t later IH]; intros s; [reflexivity|].
  cbn [fold_left].
  replace (run_turn T E undefined toString values expectComplete true
             matcher valuePrinter s t)
    with (run_turn T E undefined toString values expectComplete' true
            matcher valuePrinter s t); [apply IH|].
  destruct t as [ev |]; [|reflexivity].
  cbn [run_turn]. unfold exec.
  rewrite (handler_with_expectError T E undefined toString values matcher
             valuePrinter expectComplete expectComplete').
  reflexivity.
Qed.

(** ** Scenarios with the default comparator and printer

    [matchNumbers values expectComplete expectError sync later] is
    [matchObservable] on numbers with the default [matcher] and
    [valuePrinter], for an observable that errors with strings. *)
Abbreviation matchNumbers values expectComplete expectError :=
  (matchObservable jsval string JUndefined string_toString
     values expectComplete expectError strict_equal JSON_stringify)
  (only parsing).

Abbreviation deliverNumbers values expectComplete expectError :=
  (deliver jsval string JUndefined string_toString
     values expectComplete expectError strict_equal JSON_stringify)
  (only parsing).

Abbreviation reachableNumbers values expectComplete expectError :=
  (reachable jsval string JUndefined string_toString
     values expectComplete expectError strict_equal JSON_stringify)
  (only parsing).

Notation "# n" := (JNumber n) (at level 5, n at level 1, only parsing).

(** The scenarios of the specification. *)
Example values_123_complete_resolves :
  promise (matchNumbers [#1; #2; #3] true false []
             [Deliver (Next #1); Deliver (Next #2); Deliver (Next #3);
              Deliver Complete])
  = Resolved.
Proof. reflexivity. Qed.

Example values_124_rejects :
  promise (matchNumbers [#1; #2; #3] true false []
             [Deliver (Next #1); Deliver (Next #2); Deliver (Next #4)])
  = Rejected ("Values at index 2 are expected to match. Received:" ++ nl
              ++ "4" ++ nl ++ "Expected:" ++ nl ++ "3")%string.
Proof. reflexivity. Qed.

Example empty_values_complete_resolves :
  promise (matchNumbers [] true false [Complete] []) = Resolved.
Proof. reflexivity. Qed.

Example values_then_error_rejects :
  promise (matchNumbers [#1] true false []
             [Deliver (Next #1); Deliver (Error "boom"%string)])
  = Rejected "Observable errored unexpectedly before emission index 1. Error: boom".
Proof. reflexivity. Qed.

(** C1.  The claim asks for a failure when an error is demanded
    ([expectError] true, [expectComplete] false) and the stream completes
    after the expected values.  [complete] does not consult the flags: the
    stream emits 1, 2, 3 and completes, and the promise is resolved; so it
    is for no expected values at all, and for every list of expected
    numbers emitted in order before the completion. *)
Theorem expect_error_completion_resolves :
  promise (matchObservable jsval string JUndefined string_toString
             [#1; #2; #3] false true strict_equal JSON_stringify []
             [Deliver (Next #1); Deliver (Next #2); Deliver (Next #3);
              Deliver Complete])
  = Resolved /\
  promise (matchObservable jsval string JUndefined string_toString
             [] false true strict_equal JSON_stringify [Complete] [])
  = Resolved /\
  (forall ns : list Z,
      promise (matchObservable jsval string JUndefined string_toString
                 (map JNumber ns) false true strict_equal JSON_stringify
                 (map Next (map JNumber ns) ++ [Complete]) [])
      = Resolved).
Proof.
  split; [reflexivity|]. split; [reflexivity|].
  intros ns.
  destruct (matchObservable_verdict jsval string JUndefined string_toString
              (map JNumber ns) false true strict_equal JSON_stringify
              (map Next (map JNumber ns) ++ [Complete]) []) as [_ Hp].
  rewrite Hp. cbn [emissions flat_map]. rewrite app_nil_r.
  apply values_then_complete; [reflexivity|]. clear Hp.
  induction ns as [| n ns IH]; cbn [map]; constructor;
    [apply Z.eqb_refl | exact IH].
Qed.

(** C2.  The claim asks for immediate success with no expected values and
    both flags false.  [matchObs] only subscribes: as long as the stream
    delivers nothing the promise stays pending, however many timer turns
    pass, and an error of the stream then rejects it. *)
Theorem empty_values_no_flags_stays_pending :
  (forall n : nat,
      promise (matchObservable jsval string JUndefined string_toString
                 [] false false strict_equal JSON_stringify
                 [] (repeat Timeout n))
      = Pending) /\
  promise (matchObservable jsval string JUndefined string_toString
             [] false false strict_equal JSON_stringify
             [] [Deliver (Error "boom"%string)])
  = Rejected "Observable errored unexpectedly before emission index 0. Error: boom".
Proof.
  split; [|reflexivity].
  intros n.
  destruct (matchObservable_verdict jsval string JUndefined string_toString
              [] false false strict_equal JSON_stringify
              [] (repeat Timeout n)) as [_ Hp].
  rewrite Hp. clear Hp.
  replace (emissions jsval string (repeat Timeout n))
    with (@nil (event jsval string)); [reflexivity|].
  induction n as [| n IH]; [reflexivity | exact IH].
Qed.


(** ** The theorems at concrete runs *)

(** After 1, 2 and a mismatching 4 inside [subscribe], a late 3 is ignored. *)
Lemma finalized_matcher_is_inert_witness :
  expectedStep (matchNumbers [#1; #2; #3] true false
                  [Next #1; Next #2; Next #4] []) = -1 /\
  handler jsval string JUndefined string_toString [#1; #2; #3] true false
    strict_equal JSON_stringify (Next #3)
    (matchNumbers [#1; #2; #3] true false [Next #1; Next #2; Next #4] [])
  = (tt, matchNumbers [#1; #2; #3] true false [Next #1; Next #2; Next #4] []).
Proof.
  split; [reflexivity|].
  apply (finalized_matcher_is_inert jsval string JUndefined string_toString
           [#1; #2; #3] true false strict_equal JSON_stringify
           (matchNumbers [#1; #2; #3] true false
              [Next #1; Next #2; Next #4] [])).
  - apply reach_later.
  - reflexivity.
Defined.

Lemma default_flags_values_then_complete_witness :
  promise (matchNumbers [#1; #2; #3] true false [Next #1]
             [Deliver (Next #2); Timeout; Deliver (Next #3);
              Deliver Complete])
  = Resolved.
Proof.
  apply (default_flags_values_then_complete jsval string JUndefined
           string_toString [#1; #2; #3] true false strict_equal
           JSON_stringify [#1; #2; #3]).
  - reflexivity.
  - reflexivity.
  - repeat constructor.
  - reflexivity.
Defined.

Lemma mismatch_rejects_naming_index_witness :
  promise (exec (next jsval string JUndefined [#1; #2; #3] true false
                   strict_equal JSON_stringify #4)
             (deliverNumbers [#1; #2; #3] true false [Next #1; Next #2]
                (initial jsval string)))
  = Rejected ("Values at index 2 are expected to match. Received:" ++ nl
              ++ "4" ++ nl ++ "Expected:" ++ nl ++ "3")%string.
Proof.
  apply (mismatch_rejects_naming_index jsval string JUndefined string_toString
           [#1; #2; #3] true false strict_equal JSON_stringify
           (deliverNumbers [#1; #2; #3] true false [Next #1; Next #2]
              (initial jsval string))
           2 #4).
  - apply reach_subscribing.
  - reflexivity.
  - unfold values_length; cbn; lia.
  - reflexivity.
Defined.

Lemma extra_value_rejects_witness :
  promise (exec (next jsval string JUndefined [#1] true false
                   strict_equal JSON_stringify #7)
             (deliverNumbers [#1] true false [Next #1]
                (initial jsval string)))
  = Rejected "Too many values on observable: 7".
Proof.
  apply (extra_value_rejects jsval string JUndefined string_toString
           [#1] true false strict_equal JSON_stringify
           (deliverNumbers [#1] true false [Next #1] (initial jsval string))
           #7).
  - apply reach_subscribing.
  - cbn; lia.
  - unfold values_length; cbn; lia.
Defined.

Lemma no_flags_success_at_last_value_witness :
  promise (matchNumbers [#1; #2] false false [Next #1] [Deliver (Next #2)])
  = Resolved /\
  promise (matchNumbers [#1; #2] false false [Next #1] []) = Pending.
Proof.
  destruct (no_flags_success_at_last_value jsval string JUndefined
              string_toString [#1; #2] false false strict_equal
              JSON_stringify [#1; #2]) as [Hall Hshorter].
  - reflexivity.
  - reflexivity.
  - discriminate.
  - repeat constructor.
  - split.
    + apply Hall. reflexivity.
    + apply (Hshorter _ _ [#1] [#2]); [reflexivity | discriminate | reflexivity].
Defined.


Lemma cursor_stays_in_range_witness :
  (expectedStep (matchNumbers [#1; #2] true false [Next #1] [Timeout])
   <? values_length jsval [#1; #2]) = true.
Proof.
  apply (cursor_stays_in_range jsval string JUndefined string_toString
           [#1; #2] true false strict_equal JSON_stringify
           (matchNumbers [#1; #2] true false [Next #1] [Timeout])).
  - apply reach_later.
  - cbn; lia.
  - cbn. unfold values_length. cbn. lia.
Defined.

Lemma unsubscribe_once_after_finalize_witness :
  unsubscribed
    (fold_left (run_turn jsval string JUndefined string_toString [#1] true
                  false strict_equal JSON_stringify)
       [Deliver (Next #5); Timeout; Timeout]
       (matchNumbers [#1] true false [Next #1; Complete] []))
  = 1%nat.
Proof.
  apply (unsubscribe_once_after_finalize jsval string JUndefined
           string_toString [#1] true false strict_equal JSON_stringify
           (matchNumbers [#1] true false [Next #1; Complete] [])).
  - apply reach_later.
  - reflexivity.
  - reflexivity.
  - right; left; reflexivity.
Defined.

(** ** The further properties at concrete runs *)


Lemma first_mismatch_decides_witness :
  promise (matchNumbers [#1; #2; #3] true false [Next #1]
             [Deliver (Next #2); Deliver (Next #4); Timeout;
              Deliver (Next #3); Deliver Complete])
  = Rejected ("Values at index 2 are expected to match. Received:" ++ nl
              ++ "4" ++ nl ++ "Expected:" ++ nl ++ "3")%string.
Proof.
  apply (first_mismatch_decides jsval string JUndefined string_toString
           [#1; #2; #3] true false strict_equal JSON_stringify
           [#1; #2] [#1; #2] [] #3 #4 [Next #3; Complete]).
  - reflexivity.
  - repeat constructor.
  - reflexivity.
  - reflexivity.
Defined.

Lemma early_completion_rejects_witness :
  promise (matchNumbers [#1; #2; #3] true false [Next #1; Complete] [])
  = Rejected "Observable completed unexpectedly after 1 value emissions. Missing values from observable.".
Proof.
  apply (early_completion_rejects jsval string JUndefined string_toString
           [#1; #2; #3] true false strict_equal JSON_stringify
           [#1] [#1] [#2; #3] []).
  - reflexivity.
  - discriminate.
  - repeat constructor.
  - reflexivity.
Defined.

Lemma early_error_rejects_witness :
  promise (matchNumbers [#1; #2] false true []
             [Deliver (Next #1); Deliver (Error "boom"%string)])
  = Rejected "Observable errored unexpectedly before emission index 1. Error: boom".
Proof.
  apply (early_error_rejects jsval string JUndefined string_toString
           [#1; #2] false true strict_equal JSON_stringify
           [#1] [#1] [#2] "boom"%string "boom"%string []).
  - reflexivity.
  - discriminate.
  - repeat constructor.
  - reflexivity.
  - reflexivity.
Defined.

Lemma expected_error_resolves_witness :
  promise (matchNumbers [#1; #2] false true [Next #1]
             [Deliver (Next #2); Deliver (Error "boom"%string)])
  = Resolved.
Proof.
  apply (expected_error_resolves jsval string JUndefined string_toString
           [#1; #2] false true strict_equal JSON_stringify
           [#1; #2] "boom"%string []).
  - reflexivity.
  - repeat constructor.
  - reflexivity.
Defined.

Lemma unexpected_error_after_values_rejects_witness :
  promise (matchNumbers [#1; #2] true false []
             [Deliver (Next #1); Deliver (Next #2);
              Deliver (Error "boom"%string)])
  = Rejected "Observable errored unexpectedly before emission index 2. Error: boom".
Proof.
  apply (unexpected_error_after_values_rejects jsval string JUndefined
           string_toString [#1; #2] true false strict_equal JSON_stringify
           [#1; #2] "boom"%string "boom"%string []).
  - reflexivity.
  - reflexivity.
  - repeat constructor.
  - reflexivity.
  - reflexivity.
Defined.

Lemma extra_value_after_values_rejects_witness :
  promise (matchNumbers [#1; #2] true false []
             [Deliver (Next #1); Deliver (Next #2); Deliver (Next #3);
              Deliver Complete])
  = Rejected "Too many values on observable: 3".
Proof.
  apply (extra_value_after_values_rejects jsval string JUndefined
           string_toString [#1; #2] true false strict_equal JSON_stringify
           [#1; #2] #3 [Complete]).
  - reflexivity.
  - repeat constructor.
  - reflexivity.
Defined.

Lemma no_flags_rest_not_observed_witness :
  promise (matchNumbers [#1; #2] false false []
             [Deliver (Next #1); Deliver (Next #2); Deliver (Next #3);
              Deliver (Error "boom"%string)])
  = Resolved.
Proof.
  apply (no_flags_rest_not_observed jsval string JUndefined string_toString
           [#1; #2] false false strict_equal JSON_stringify
           [#1; #2] [Next #3; Error "boom"%string]).
  - reflexivity.
  - reflexivity.
  - discriminate.
  - repeat constructor.
  - reflexivity.
Defined.

Lemma matching_values_keep_pending_witness :
  promise (matchNumbers [#1; #2] true false [Next #1]
             [Timeout; Deliver (Next #2); Timeout])
  = Pending /\
  expectedStep (matchNumbers [#1; #2] true false [Next #1]
                  [Timeout; Deliver (Next #2); Timeout])
  = 2.
Proof.
  apply (matching_values_keep_pending jsval string JUndefined string_toString
           [#1; #2] true false strict_equal JSON_stringify
           [#1; #2] [#1; #2] []).
  - reflexivity.
  - repeat constructor.
  - right; reflexivity.
  - reflexivity.
Defined.

Lemma comparator_and_printer_calls_witness :
  (count jsval string (is_compare jsval string)
     (log (matchNumbers [#1; #2] true false [Next #1]
             [Deliver (Next #2); Deliver Complete; Deliver (Next #3)]))
   <= 2)%nat.
Proof.
  apply (comparator_and_printer_calls jsval string JUndefined string_toString
           [#1; #2] true false strict_equal JSON_stringify
           (matchNumbers [#1; #2] true false [Next #1]
              [Deliver (Next #2); Deliver Complete; Deliver (Next #3)])).
  apply reach_later.
Defined.

Lemma both_flags_accept_either_end_witness :
  promise (matchNumbers [#1] true true [Next #1; Complete] []) = Resolved /\
  promise (matchNumbers [#1] true true [Next #1; Error "boom"%string] [])
  = Resolved.
Proof.
  split.
  - apply (both_flags_accept_either_end jsval string JUndefined
             string_toString [#1] true true strict_equal JSON_stringify
             [#1] Complete []).
    + reflexivity.
    + reflexivity.
    + repeat constructor.
    + left; reflexivity.
    + reflexivity.
  - apply (both_flags_accept_either_end jsval string JUndefined
             string_toString [#1] true true strict_equal JSON_stringify
             [#1] (Error "boom"%string) []).
    + reflexivity.
    + reflexivity.
    + repeat constructor.
    + right; exists "boom"%string; reflexivity.
    + reflexivity.
Defined.

